(** * storevdapp: the [Storage] contract and its deployment driver

    The repository holds a one-variable Solidity contract ([Storage], in the
    walkthrough README.md, step 7) and a Hardhat script that deploys it and
    exercises it once (scripts/deploy.js, with a second copy in README.md,
    step 9).

    The contract is embedded as a record with explicit state passing; the
    script is embedded as a finite program over the calls it makes to the
    host (Hardhat, ethers, console), to be run against any host. *)

From stdpp Require Import base numbers list strings gmap.

Local Open Scope Z_scope.

(** ** The contract (README.md, step 7) *)

Module Storage.

(** [uint256]: Solidity's unsigned 256-bit integers, as [Z] with the
    range written out. *)
Definition is_uint256 (n : Z) : bool := (0 <=? n) && (n <? 2 ^ 256).

(** [contract Storage { uint256 private number; ... }] *)
Record contract : Type := { number : Z }.

(** The contract declares no constructor: on creation every state
    variable holds the default value of its type, [0] for [uint256]. *)
Definition constructor : contract := {| number := 0 |}.

(** [function store(uint256 num) public { number = num; }] *)
Definition store (num : Z) (self : contract) : unit * contract :=
  (tt, {| number := num |}).

(** [function retrieve() public view returns (uint256) { return number; }] *)
Definition retrieve (self : contract) : Z * contract :=
  (number self, self).

(** The external interface: one message per public function, and the
    data a call returns. *)
Inductive call : Type :=
| Store (num : Z)
| Retrieve.

Inductive reply : Type :=
| Done
| Value (v : Z).

(** A call is well-typed when its argument inhabits [uint256]. *)
Definition call_ok (c : call) : bool :=
  match c with
  | Store num => is_uint256 num
  | Retrieve => true
  end.

Definition dispatch (c : call) (self : contract) : reply * contract :=
  match c with
  | Store num => let '(_, self') := store num self in (Done, self')
  | Retrieve => let '(v, self') := retrieve self in (Value v, self')
  end.

(** A sequence of calls, each run on the state the previous one left. *)
Fixpoint exec (cs : list call) (self : contract) : list reply * contract :=
  match cs with
  | [] => ([], self)
  | c :: cs' =>
      let '(r, self') := dispatch c self in
      let '(rs, self'') := exec cs' self' in
      (r :: rs, self'')
  end.

(** The invariant of the single state variable. *)
Definition wf (self : contract) : bool := is_uint256 (number self).

End Storage.

(** ** Facts about the contract *)

Section StorageFacts.
Import Storage.

Lemma is_uint256_spec (n : Z) : is_uint256 n = true <-> 0 <= n < 2 ^ 256.
Proof.
  unfold is_uint256. rewrite andb_true_iff, Z.leb_le, Z.ltb_lt. tauto.
Qed.

Lemma exec_app (cs1 cs2 : list call) (self : contract) :
  exec (cs1 ++ cs2) self =
    ((exec cs1 self).1 ++ (exec cs2 (exec cs1 self).2).1,
     (exec cs2 (exec cs1 self).2).2).
Proof.
  revert self. induction cs1 as [|c cs1 IH]; intros self; simpl.
  - by destruct (exec cs2 self).
  - destruct (dispatch c self) as [r self1]. rewrite IH.
    by destruct (exec cs1 self1) as [rs self2].
Qed.

Lemma exec_retrieves (n : nat) (self : contract) :
  exec (replicate n Retrieve) self =
    (replicate n (Value (number self)), self).
Proof.
  induction n as [|n IH]; simpl; [done|]. by rewrite IH.
Qed.

Lemma exec_wf (cs : list call) (self : contract) :
  forallb call_ok cs = true -> wf self = true -> wf (exec cs self).2 = true.
Proof.
  revert self. induction cs as [|c cs IH]; intros self Hcs Hself; simpl in *.
  - done.
  - apply andb_true_iff in Hcs as [Hc Hcs].
    destruct (dispatch c self) as [r self1] eqn:Hd.
    specialize (IH self1 Hcs).
    destruct (exec cs self1) as [rs self2]. simpl in *. apply IH.
    destruct c; simpl in Hd; inversion Hd; subst; done.
Qed.

End StorageFacts.

(** C1: for every v with 0 <= v < 2^256 and every state of the counter,
    [store v] followed by [retrieve] returns v. *)
Theorem store_then_retrieve (self : Storage.contract) (v : Z) :
  0 <= v < 2 ^ 256 ->
  (Storage.retrieve (Storage.store v self).2).1 = v.
Proof. intros _. reflexivity. Qed.

Lemma store_then_retrieve_witness :
  0 <= 50 < 2 ^ 256 /\
  (Storage.retrieve (Storage.store 50 Storage.constructor).2).1 = 50.
Proof.
  split.
  - by apply is_uint256_spec.
  - apply (store_then_retrieve Storage.constructor 50). by apply is_uint256_spec.
Defined.

(** C3: [retrieve] on a freshly created counter, before any [store],
    returns 0; so does every one of any number of reads made before the
    first write. *)
Theorem retrieve_fresh_is_zero :
  (Storage.retrieve Storage.constructor).1 = 0 /\
  forall n : nat,
    (Storage.exec (replicate n Storage.Retrieve) Storage.constructor).1 =
      replicate n (Storage.Value 0).
Proof.
  split; [reflexivity|]. intros n. by rewrite exec_retrieves.
Qed.

(** C4: after [store v1] and then [store v2], [retrieve] returns v2, and
    nothing of v1 is left: the state, and with it the reply to every later
    sequence of calls, is the one reached by [store v2] alone, whatever v1
    and the earlier state were. *)
Theorem last_write_wins (self : Storage.contract) (v1 v2 : Z) :
  0 <= v1 < 2 ^ 256 -> 0 <= v2 < 2 ^ 256 ->
  let after := (Storage.store v2 (Storage.store v1 self).2).2 in
  (Storage.retrieve after).1 = v2 /\
  (forall (self' : Storage.contract) (v1' : Z),
      after = (Storage.store v2 (Storage.store v1' self').2).2) /\
  (forall self' : Storage.contract, after = (Storage.store v2 self').2) /\
  (forall (cs : list Storage.call) (self' : Storage.contract),
      Storage.exec cs after = Storage.exec cs (Storage.store v2 self').2).
Proof. intros _ _. simpl. repeat split. Qed.

Lemma last_write_wins_witness :
  (0 <= 50 < 2 ^ 256 /\ 0 <= 100 < 2 ^ 256) /\
  (Storage.retrieve
     (Storage.store 100 (Storage.store 50 Storage.constructor).2).2).1 = 100.
Proof.
  split; [split; by apply is_uint256_spec|].
  refine (proj1 (last_write_wins Storage.constructor 50 100 _ _));
    by apply is_uint256_spec.
Defined.

(** C5: [retrieve] leaves the state as it found it, and reads that follow
    one another with no write in between all return the same value. *)
Theorem retrieve_is_pure (self : Storage.contract) :
  (Storage.retrieve self).2 = self /\
  (Storage.retrieve (Storage.retrieve self).2).1 = (Storage.retrieve self).1 /\
  forall n : nat,
    Storage.exec (replicate n Storage.Retrieve) self =
      (replicate n (Storage.Value (Storage.retrieve self).1), self).
Proof.
  repeat split. intros n. by rewrite exec_retrieves.
Qed.

(** C8: the stored value stays within 0 <= number < 2^256: it holds on
    creation, a [store] of a [uint256] argument establishes it, a
    [retrieve] keeps it, and so it holds after every sequence of
    well-typed calls on a created counter. *)
Theorem number_in_range :
  0 <= Storage.number Storage.constructor < 2 ^ 256 /\
  (forall (self : Storage.contract) (num : Z),
      0 <= num < 2 ^ 256 ->
      0 <= Storage.number (Storage.store num self).2 < 2 ^ 256) /\
  (forall self : Storage.contract,
      0 <= Storage.number self < 2 ^ 256 ->
      0 <= Storage.number (Storage.retrieve self).2 < 2 ^ 256) /\
  (forall cs : list Storage.call,
      forallb Storage.call_ok cs = true ->
      0 <= Storage.number (Storage.exec cs Storage.constructor).2 < 2 ^ 256).
Proof.
  split; [by apply is_uint256_spec|].
  split; [intros self num Hnum; exact Hnum|].
  split; [intros self Hself; exact Hself|].
  intros cs Hcs. apply is_uint256_spec.
  by apply (exec_wf cs Storage.constructor).
Qed.

Lemma number_in_range_witness :
  forallb Storage.call_ok [Storage.Store 50; Storage.Retrieve; Storage.Store 100] = true /\
  0 <= Storage.number
         (Storage.exec [Storage.Store 50; Storage.Retrieve; Storage.Store 100]
            Storage.constructor).2 < 2 ^ 256.
Proof.
  split; [reflexivity|].
  exact (proj2 (proj2 (proj2 number_in_range))
           [Storage.Store 50; Storage.Retrieve; Storage.Store 100] eq_refl).
Defined.

(** C10: a [store 0] leaves any counter in the state of a freshly created
    one: the read that follows returns 0, as on a fresh counter, and no
    later sequence of calls tells the two apart. *)
Theorem store_zero_is_fresh (self : Storage.contract) :
  (Storage.retrieve (Storage.store 0 self).2).1 = 0 /\
  (Storage.retrieve (Storage.store 0 self).2).1 =
    (Storage.retrieve Storage.constructor).1 /\
  (Storage.store 0 self).2 = Storage.constructor /\
  forall cs : list Storage.call,
    Storage.exec cs (Storage.store 0 self).2 =
      Storage.exec cs Storage.constructor.
Proof. repeat split. Qed.

(** ** The host interface of the script *)

Module Host.

(** What the script holds of the host's objects: the contract factory
    ([Storage] in the script), the contract instance ([storage]) with
    its [address], and the response to a sent transaction ([tx]). *)
Record ContractFactory : Type := { contractName : string }.
Record Contract : Type := { address : N; deployTransaction : N }.
Record TransactionResponse : Type := { hash : N }.

(** Modelled from the spec: the failures a host call can raise (spec,
    section 7); the sources construct no error themselves, they only
    hand on what the host throws. *)
Inductive Error : Type :=
| HostUnreachable
| Unauthorized
| NotFound
| InvalidArgument.

(** An argument of [console.log]. *)
Inductive value : Type :=
| Str (s : string)
| Addr (a : N)
| Num (n : Z).

(** The calls of the script, indexed by the type of what they yield:
    [hre.ethers.getContractFactory(name)], [Storage.deploy()],
    [storage.deployed()], [storage.retrieve()], [storage.store(num)],
    [tx.wait()] and [console.log(...)]. *)
Inductive hostE : Type -> Type :=
| GetContractFactory (name : string) : hostE ContractFactory
| Deploy (f : ContractFactory) : hostE Contract
| Deployed (c : Contract) : hostE unit
| CallRetrieve (c : Contract) : hostE Z
| SendStore (c : Contract) (num : Z) : hostE TransactionResponse
| Wait (tx : TransactionResponse) : hostE unit
| ConsoleLog (args : list value) : hostE unit.

(** The body of an [async] function: a finite tree of host calls, each
    awaited before the next is made. *)
Inductive prog (R : Type) : Type :=
| Ret (r : R)
| Vis {X : Type} (e : hostE X) (k : X -> prog R).
Arguments Ret {R} r.
Arguments Vis {R X} e k.

Fixpoint bind {A B : Type} (p : prog A) (f : A -> prog B) : prog B :=
  match p with
  | Ret a => f a
  | Vis e k => Vis e (fun x => bind (k x) f)
  end.

(** [await e] *)
Definition await {X : Type} (e : hostE X) : prog X := Vis e Ret.

(** [console.log(...)] *)
Definition console_log (args : list value) : prog unit := Vis (ConsoleLog args) Ret.

(** A host: how each call answers in a host state, with a thrown error
    on the left. *)
Definition handler (S : Type) : Type :=
  forall X : Type, hostE X -> S -> (Error + X) * S.

(** The calls as they show in a trace, without the host's handles. *)
Inductive op : Type :=
| OpGetContractFactory (name : string)
| OpDeploy
| OpDeployed
| OpRetrieve
| OpStore (num : Z)
| OpWait
| OpLog.

Definition op_of {X : Type} (e : hostE X) : op :=
  match e with
  | GetContractFactory name => OpGetContractFactory name
  | Deploy _ => OpDeploy
  | Deployed _ => OpDeployed
  | CallRetrieve _ => OpRetrieve
  | SendStore _ num => OpStore num
  | Wait _ => OpWait
  | ConsoleLog _ => OpLog
  end.

(** A trace entry: the call made, and the error it threw if it did. *)
Definition entry : Type := op * option Error.
Definition returned (o : op) : entry := (o, None).
Definition threw (o : op) (err : Error) : entry := (o, Some err).

Record result (S R : Type) : Type := {
  completion : Error + R;
  host : S;
  trace : list entry
}.
Arguments completion {S R} _.
Arguments host {S R} _.
Arguments trace {S R} _.

(** A call that returned, put in front of the trace of what followed. *)
Definition after_call {S R : Type} (o : op) (r : result S R) : result S R :=
  {| completion := completion r; host := host r;
     trace := returned o :: trace r |}.

(** Running a program on a host: a call that throws rejects the whole
    [async] function at that point, its continuation is dropped. *)
Fixpoint run {S R : Type} (h : handler S) (p : prog R) (s : S) : result S R :=
  match p with
  | Ret r => {| completion := inr r; host := s; trace := [] |}
  | Vis e k =>
      match h _ e s with
      | (inl err, s') =>
          {| completion := inl err; host := s'; trace := [threw (op_of e) err] |}
      | (inr x, s') => after_call (op_of e) (run h (k x) s')
      end
  end.

(** The Node process around the script: what [console.error] wrote and
    [process.exitCode], unset when the process starts. *)
Record process : Type := {
  stderr : list Error;
  exitCode : option Z
}.

Definition process_start : process := {| stderr := []; exitCode := None |}.

(** Node exits with [process.exitCode] when it is set, with 0 otherwise. *)
Definition exit_status (p : process) : Z := default 0 (exitCode p).

(** [main().catch((error) => { console.error(error); process.exitCode = 1; })] *)
Definition script {S : Type} (main : prog unit) (h : handler S) (s : S)
    (p : process) : result S unit * process :=
  let r := run h main s in
  match completion r with
  | inr _ => (r, p)
  | inl error =>
      (r, {| stderr := stderr p ++ [error]; exitCode := Some 1 |})
  end.

#[global] Instance prog_ret : MRet prog := @Ret.
#[global] Instance prog_bind : MBind prog := fun A B f p => bind p f.

End Host.

(** ** The two copies of the script *)

(** scripts/deploy.js *)
Module DeployJs.
Import Host.

Definition main : prog unit :=
  Storage ← await (GetContractFactory "Storage");
  storage ← await (Deploy Storage);
  await (Deployed storage);;
  console_log [Str "Storage contract deployed to:"; Addr (address storage)];;
  v ← await (CallRetrieve storage);
  console_log [Str "Retrieve value:"; Num v];;
  console_log [Str "Store value 100 in the contract..."];;
  tx ← await (SendStore storage 50);
  await (Wait tx);;
  v' ← await (CallRetrieve storage);
  console_log [Str "Retrieve value after storing:"; Num v'].

End DeployJs.

(** README.md, step 9 *)
Module Readme.
Import Host.

Definition main : prog unit :=
  Storage ← await (GetContractFactory "Storage");
  storage ← await (Deploy Storage);
  await (Deployed storage);;
  console_log [Str "Storage contract deployed to:"; Addr (address storage)];;
  v ← await (CallRetrieve storage);
  console_log [Str "Retrieve value:"; Num v];;
  console_log [Str "Store value 100 in the contract..."];;
  tx ← await (SendStore storage 100);
  await (Wait tx);;
  v' ← await (CallRetrieve storage);
  console_log [Str "Retrieve value after storing:"; Num v'].

End Readme.

Section Driver.
Import Host.

(** The script with the literal of its write as a parameter (spec,
    section 9: the literal is to be read as a configurable parameter). *)
Definition driver (value : Z) : prog unit :=
  Storage ← await (GetContractFactory "Storage");
  storage ← await (Deploy Storage);
  await (Deployed storage);;
  console_log [Str "Storage contract deployed to:"; Addr (address storage)];;
  v ← await (CallRetrieve storage);
  console_log [Str "Retrieve value:"; Num v];;
  console_log [Str "Store value 100 in the contract..."];;
  tx ← await (SendStore storage value);
  await (Wait tx);;
  v' ← await (CallRetrieve storage);
  console_log [Str "Retrieve value after storing:"; Num v'].

(** The calls of the script in program order. *)
Definition driver_ops (value : Z) : list op :=
  [OpGetContractFactory "Storage"; OpDeploy; OpDeployed; OpLog;
   OpRetrieve; OpLog; OpLog; OpStore value; OpWait; OpRetrieve; OpLog].

(** The arguments of the writes that a trace holds. *)
Definition stores (tr : list entry) : list Z :=
  omap (fun e : entry =>
          match e.1 with OpStore num => Some num | _ => None end) tr.

End Driver.

(** ** An in-memory host *)

Module Ledger.
Import Host.

(** A transaction sent to the host and not yet confirmed. *)
Inductive pending : Type :=
| Creation (a : N)
| Write (a : N) (num : Z).

(** Modelled from the spec: the host ledger, which the sources use
    through Hardhat and ethers and do not contain. It holds the counter
    instances by address, the transactions awaiting confirmation, the
    next free address and hash, whether a transaction is confirmed as
    soon as it is sent, the host failures still to come (one entry for
    each call that reaches the ledger), and what [console.log] wrote. *)
Record state : Type := {
  instances : gmap N Storage.contract;
  mempool : gmap N pending;
  next_address : N;
  next_hash : N;
  automine : bool;
  faults : list (option Error);
  stdout : list (list value)
}.

Definition with_chain (insts : gmap N Storage.contract) (mp : gmap N pending)
    (l : state) : state :=
  {| instances := insts; mempool := mp;
     next_address := next_address l; next_hash := next_hash l;
     automine := automine l; faults := faults l; stdout := stdout l |}.

Definition with_next (a h : N) (l : state) : state :=
  {| instances := instances l; mempool := mempool l;
     next_address := a; next_hash := h;
     automine := automine l; faults := faults l; stdout := stdout l |}.

Definition with_faults (fs : list (option Error)) (l : state) : state :=
  {| instances := instances l; mempool := mempool l;
     next_address := next_address l; next_hash := next_hash l;
     automine := automine l; faults := fs; stdout := stdout l |}.

Definition with_stdout (out : list (list value)) (l : state) : state :=
  {| instances := instances l; mempool := mempool l;
     next_address := next_address l; next_hash := next_hash l;
     automine := automine l; faults := faults l; stdout := out |}.

(** Modelled from the spec: confirmation of a transaction. A creation
    instantiates a counter, zero-initialised, at its address; a write
    runs the contract's [store] on the instance at its address (and
    changes nothing where there is none). *)
Definition confirm (h : N) (l : state) : state :=
  match mempool l !! h with
  | Some (Creation a) =>
      with_chain (<[a := Storage.constructor]> (instances l))
                 (delete h (mempool l)) l
  | Some (Write a num) =>
      with_chain (alter (fun self => (Storage.store num self).2) a (instances l))
                 (delete h (mempool l)) l
  | None => l
  end.

(** Modelled from the spec: sending a transaction. It gets the next hash and waits in the
    mempool, unless the host confirms at once. *)
Definition submit (t : pending) (l : state) : N * state :=
  let h := next_hash l in
  let l' := with_next (next_address l) (h + 1)%N
              (with_chain (instances l) (<[h := t]> (mempool l)) l) in
  (h, if automine l then confirm h l' else l').

(** Modelled from the spec: how the host answers each call when it does
    not fail on its own. A read of an address that holds no instance
    fails with [NotFound]; a write whose argument is no [uint256] fails
    with [InvalidArgument]. *)
Definition answer {X : Type} (e : hostE X) (l : state) : (Error + X) * state :=
  match e in hostE X return (Error + X) * state with
  | GetContractFactory name =>
      if decide (name = "Storage")
      then (inr {| contractName := name |}, l)
      else (inl NotFound, l)
  | Deploy f =>
      let a := next_address l in
      let '(h, l') := submit (Creation a) (with_next (a + 1)%N (next_hash l) l) in
      (inr {| address := a; deployTransaction := h |}, l')
  | Deployed c =>
      let l' := confirm (deployTransaction c) l in
      match instances l' !! address c with
      | Some _ => (inr tt, l')
      | None => (inl NotFound, l')
      end
  | CallRetrieve c =>
      match instances l !! address c with
      | Some self => (inr (Storage.retrieve self).1, l)
      | None => (inl NotFound, l)
      end
  | SendStore c num =>
      if Storage.is_uint256 num
      then let '(h, l') := submit (Write (address c) num) l in
           (inr {| hash := h |}, l')
      else (inl InvalidArgument, l)
  | Wait tx => (inr tt, confirm (hash tx) l)
  | ConsoleLog args => (inr tt, with_stdout (stdout l ++ [args]) l)
  end.

(** Modelled from the spec: the next host failure to come, if any (spec,
    section 7, host-level failures). *)
Definition fault (l : state) : option Error * state :=
  match faults l with
  | [] => (None, l)
  | f :: fs => (f, with_faults fs l)
  end.

(** Modelled from the spec: the ledger as a host. A call that reaches
    the ledger first meets the failure scheduled for it; [console.log]
    reaches no ledger. *)
Definition handle : handler state := fun X e l =>
  match op_of e with
  | OpLog => answer e l
  | _ =>
      match fault l with
      | (Some err, l') => (inl err, l')
      | (None, l') => answer e l'
      end
  end.

(** A ledger with nothing on it and the given failures to come. *)
Definition genesis (auto : bool) (fs : list (option Error)) : state :=
  {| instances := ∅; mempool := ∅; next_address := 1; next_hash := 1;
     automine := auto; faults := fs; stdout := [] |}.

End Ledger.

(** ** Facts about running a program on any host *)

Section RunFacts.
Import Host.
Context {S R : Type} (h : handler S).

Lemma run_ret (r : R) (s : S) :
  run h (Ret r) s = {| completion := inr r; host := s; trace := [] |}.
Proof. reflexivity. Qed.

Lemma run_vis_threw {X : Type} (e : hostE X) (k : X -> prog R) (s s' : S)
    (err : Error) :
  h X e s = (inl err, s') ->
  run h (Vis e k) s =
    {| completion := inl err; host := s'; trace := [threw (op_of e) err] |}.
Proof. intros Hh. simpl. by rewrite Hh. Qed.

Lemma run_vis_returned {X : Type} (e : hostE X) (k : X -> prog R) (s s' : S)
    (x : X) :
  h X e s = (inr x, s') ->
  run h (Vis e k) s = after_call (op_of e) (run h (k x) s').
Proof. intros Hh. simpl. by rewrite Hh. Qed.

(** In every run, the calls before the last all returned; the run is
    rejected exactly when its last call threw, and with that error. *)
Lemma run_trace_shape (p : prog R) (s : S) :
  match completion (run h p s) with
  | inr _ => Forall (fun e : entry => e.2 = None) (trace (run h p s))
  | inl err =>
      exists (pre : list entry) (o : op),
        trace (run h p s) = pre ++ [threw o err] /\
        Forall (fun e : entry => e.2 = None) pre
  end.
Proof.
  revert s. induction p as [r|X e k IH]; intros s.
  - simpl. constructor.
  - destruct (h X e s) as [[err|x] s'] eqn:Hh.
    + rewrite (run_vis_threw e k s s' err Hh). simpl.
      exists [], (op_of e). split; [done|constructor].
    + rewrite (run_vis_returned e k s s' x Hh). simpl.
      specialize (IH x s').
      destruct (completion (run h (k x) s')) as [err|r].
      * destruct IH as (pre & o & -> & Hpre).
        exists (returned (op_of e) :: pre), o. split; [done|].
        by constructor.
      * by constructor.
Qed.

End RunFacts.

Section ScriptFacts.
Import Host.
Context {S : Type} (h : handler S).

(** What the [catch] of the script leaves in the process. *)
Lemma script_process (main : prog unit) (s : S) (p : process) :
  (script main h s p).1 = run h main s /\
  match completion (run h main s) with
  | inr _ => (script main h s p).2 = p
  | inl err =>
      (script main h s p).2 =
        {| stderr := stderr p ++ [err]; exitCode := Some 1 |}
  end.
Proof.
  unfold script. by destruct (completion (run h main s)).
Qed.

(** One call of the straight-line script: case on the host's answer. *)
Ltac host_answer :=
  cbn [bind];
  match goal with
  | |- context [run h (Vis ?e ?k) ?s] =>
      let err := fresh "err" in
      let x := fresh "x" in
      let s' := fresh "s" in
      let Hh := fresh "Hh" in
      destruct (h _ e s) as [[err|x] s'] eqn:Hh;
      [ rewrite (run_vis_threw h e k s s' err Hh)
      | rewrite (run_vis_returned h e k s s' x Hh) ];
      cbn [completion trace host after_call]
  end.

(** The runs of the parameterised script on any host: all eleven calls
    return, or the calls stop at the first that throws. *)
Lemma driver_runs (value : Z) (s : S) :
  let r := run h (driver value) s in
  match completion r with
  | inr _ => trace r = map returned (driver_ops value)
  | inl err =>
      exists (n : nat) (o : op),
        driver_ops value !! n = Some o /\
        trace r = map returned (take n (driver_ops value)) ++ [threw o err]
  end.
Proof.
  intros r. subst r. unfold driver, await, console_log, mbind, prog_bind.
  host_answer; [by exists 0%nat; eexists|].
  host_answer; [by exists 1%nat; eexists|].
  host_answer; [by exists 2%nat; eexists|].
  host_answer; [by exists 3%nat; eexists|].
  host_answer; [by exists 4%nat; eexists|].
  host_answer; [by exists 5%nat; eexists|].
  host_answer; [by exists 6%nat; eexists|].
  host_answer; [by exists 7%nat; eexists|].
  host_answer; [by exists 8%nat; eexists|].
  host_answer; [by exists 9%nat; eexists|].
  host_answer; [by exists 10%nat; eexists|].
  done.
Qed.

End ScriptFacts.

(** ** Facts about the in-memory host *)

Section LedgerFacts.
Import Host Ledger.

Ltac ledger_unfold :=
  cbv [handle op_of fault answer submit confirm
       with_next with_chain with_faults with_stdout
       instances mempool next_address next_hash automine faults stdout
       address deployTransaction hash];
  rewrite ?lookup_insert_eq, ?delete_insert_eq, ?lookup_delete_eq,
    ?lookup_alter_eq.

(** One call of the script on the ledger, which answers it. *)
Ltac ledger_step :=
  cbn [bind];
  erewrite run_vis_returned; [|ledger_unfold; ledger_unfold; reflexivity].

(** The script on a ledger with no failure to come: every call returns,
    the first read reports 0 and the second the value written, which is
    then the confirmed value of the new instance. *)
Lemma driver_on_ledger (value : Z) (l : state) :
  Storage.is_uint256 value = true ->
  faults l = [] ->
  let r := run handle (driver value) l in
  completion r = inr tt /\
  trace r = map returned (driver_ops value) /\
  stdout (host r) =
    stdout l ++
      [[Str "Storage contract deployed to:"; Addr (next_address l)];
       [Str "Retrieve value:"; Num 0];
       [Str "Store value 100 in the contract..."];
       [Str "Retrieve value after storing:"; Num value]] /\
  instances (host r) !! next_address l = Some {| Storage.number := value |} /\
  mempool (host r) !! (next_hash l + 1)%N = None.
Proof.
  intros Hv Hf r. subst r.
  destruct l as [insts mp a h auto fs out]. simpl in Hf. subst fs.
  unfold driver, await, console_log, mbind, prog_bind.
  destruct auto.
  - do 7 ledger_step.
    cbn [bind]. erewrite run_vis_returned;
      [|ledger_unfold; rewrite Hv; ledger_unfold; reflexivity].
    do 3 ledger_step.
    cbn [run after_call completion trace host instances mempool stdout
         next_address next_hash].
    rewrite <- !(assoc_L (++)). simpl.
    rewrite lookup_alter_eq, lookup_insert_eq, lookup_delete_eq. done.
  - do 7 ledger_step.
    cbn [bind]. erewrite run_vis_returned;
      [|ledger_unfold; rewrite Hv; ledger_unfold; reflexivity].
    do 3 ledger_step.
    cbn [run after_call completion trace host instances mempool stdout
         next_address next_hash].
    rewrite <- !(assoc_L (++)). simpl.
    rewrite lookup_alter_eq, lookup_insert_eq, lookup_delete_eq. done.
Qed.

End LedgerFacts.

(** ** The driver *)

(** C2: on a host with no failure to come, the script runs its calls in
    program order: it instantiates the counter, reads and reports its
    value (0), sends one write, of the literal 50, waits for its
    confirmation, and reads and reports again; the value of this last
    report is the value written. *)
Theorem main_reads_back_what_it_wrote (l : Ledger.state) :
  Ledger.faults l = [] ->
  let r := Host.run Ledger.handle DeployJs.main l in
  Host.completion r = inr tt /\
  Host.trace r =
    map Host.returned
      [Host.OpGetContractFactory "Storage"; Host.OpDeploy; Host.OpDeployed;
       Host.OpLog; Host.OpRetrieve; Host.OpLog; Host.OpLog;
       Host.OpStore 50; Host.OpWait; Host.OpRetrieve; Host.OpLog] /\
  stores (Host.trace r) = [50] /\
  Ledger.stdout (Host.host r) =
    Ledger.stdout l ++
      [[Host.Str "Storage contract deployed to:"; Host.Addr (Ledger.next_address l)];
       [Host.Str "Retrieve value:"; Host.Num 0];
       [Host.Str "Store value 100 in the contract..."];
       [Host.Str "Retrieve value after storing:"; Host.Num 50]] /\
  Ledger.instances (Host.host r) !! Ledger.next_address l =
    Some {| Storage.number := 50 |}.
Proof.
  intros Hf r. subst r. change DeployJs.main with (driver 50).
  destruct (driver_on_ledger 50 l eq_refl Hf) as (Hc & Ht & Hout & Hinst & _).
  repeat split; try done. by rewrite Ht.
Qed.

Lemma main_reads_back_what_it_wrote_witness :
  Ledger.faults (Ledger.genesis false []) = [] /\
  stores (Host.trace
            (Host.run Ledger.handle DeployJs.main (Ledger.genesis false []))) =
    [50].
Proof.
  split; [reflexivity|].
  exact (proj1 (proj2 (proj2
    (main_reads_back_what_it_wrote (Ledger.genesis false []) eq_refl)))).
Defined.

(** C6: on any host, when a call of the script throws, no later call is
    made, the error is written by [console.error] and the process exits
    with status 1; when all calls return, nothing is written to the error
    channel and the process exits with status 0. *)
Theorem main_failure_aborts {S : Type} (h : Host.handler S) (s : S) :
  let out := Host.script DeployJs.main h s Host.process_start in
  match Host.completion out.1 with
  | inr _ =>
      Host.trace out.1 = map Host.returned (driver_ops 50) /\
      Host.stderr out.2 = [] /\
      Host.exit_status out.2 = 0
  | inl err =>
      (exists (n : nat) (o : Host.op),
          driver_ops 50 !! n = Some o /\
          Host.trace out.1 =
            map Host.returned (take n (driver_ops 50)) ++ [Host.threw o err]) /\
      Host.stderr out.2 = [err] /\
      Host.exit_status out.2 = 1 /\
      Host.exit_status out.2 <> 0
  end.
Proof.
  intros out. subst out. change DeployJs.main with (driver 50).
  destruct (script_process h (driver 50) s Host.process_start) as [-> Hp].
  pose proof (driver_runs h 50 s) as Hr. cbv zeta in Hr.
  destruct (Host.completion (Host.run h (driver 50) s)) as [err|[]].
  - rewrite Hp. split; [exact Hr|]. by repeat split.
  - rewrite Hp. split; [exact Hr|]. by repeat split.
Qed.

(** C9: the script of scripts/deploy.js and its copy in README.md are the
    same program but for the literal of the write: each is the
    parameterised script at its literal, 50 and 100, so that they behave
    alike on every host once the literal is a parameter; as they stand
    they are different programs. *)
Theorem copies_differ_in_literal_only :
  DeployJs.main = driver 50 /\
  Readme.main = driver 100 /\
  (forall (S : Type) (h : Host.handler S) (s : S) (p : Host.process),
      Host.script DeployJs.main h s p = Host.script (driver 50) h s p /\
      Host.script Readme.main h s p = Host.script (driver 100) h s p) /\
  DeployJs.main <> Readme.main.
Proof.
  split; [reflexivity|]. split; [reflexivity|]. split; [by split|].
  intros Heq.
  pose proof
    (f_equal (fun p => stores (Host.trace
                (Host.run Ledger.handle p (Ledger.genesis true [])))) Heq) as H.
  vm_compute in H. discriminate H.
Qed.

(** C7: on the ledger, [retrieve] through a handle whose address holds no
    instance never returns a value, 0 or other; unless a host failure
    comes first, the error is [NotFound]. *)
Theorem retrieve_without_instance (l : Ledger.state) (c : Host.Contract) :
  Ledger.instances l !! Host.address c = None ->
  (forall v : Z, (Ledger.handle Z (Host.CallRetrieve c) l).1 <> inr v) /\
  (default None (head (Ledger.faults l)) = None ->
   (Ledger.handle Z (Host.CallRetrieve c) l).1 = inl Host.NotFound /\
   Host.completion (Host.run Ledger.handle (Host.await (Host.CallRetrieve c)) l) =
     inl Host.NotFound).
Proof.
  intros Hnone. destruct l as [insts mp a h auto fs out]. simpl in Hnone.
  unfold Ledger.handle, Ledger.fault. simpl.
  destruct fs as [|[err|] fs]; simpl; rewrite ?Hnone; simpl.
  - by repeat split.
  - split; [done|]. intros Hfault. discriminate Hfault.
  - by repeat split.
Qed.

Lemma retrieve_without_instance_witness :
  Ledger.instances (Ledger.genesis false []) !!
    Host.address {| Host.address := 7; Host.deployTransaction := 1 |} = None /\
  (Ledger.handle Z
     (Host.CallRetrieve {| Host.address := 7; Host.deployTransaction := 1 |})
     (Ledger.genesis false [])).1 = inl Host.NotFound.
Proof.
  split; [reflexivity|].
  exact (proj1 (proj2
    (retrieve_without_instance (Ledger.genesis false [])
       {| Host.address := 7; Host.deployTransaction := 1 |} eq_refl) eq_refl)).
Defined.

(** A run that fails: the host is unreachable when the write is sent. The
    three reports made so far stay, the write and all after it are not
    made, the counter keeps its value 0. *)
Example main_unreachable_at_store :
  let l := Ledger.genesis false [None; None; None; None; Some Host.HostUnreachable] in
  let out := Host.script DeployJs.main Ledger.handle l Host.process_start in
  Host.completion out.1 = inl Host.HostUnreachable /\
  Host.trace out.1 =
    map Host.returned (take 7 (driver_ops 50)) ++
      [Host.threw (Host.OpStore 50) Host.HostUnreachable] /\
  Ledger.stdout (Host.host out.1) =
    [[Host.Str "Storage contract deployed to:"; Host.Addr 1];
     [Host.Str "Retrieve value:"; Host.Num 0];
     [Host.Str "Store value 100 in the contract..."]] /\
  Ledger.instances (Host.host out.1) !! 1%N = Some {| Storage.number := 0 |} /\
  Host.stderr out.2 = [Host.HostUnreachable] /\
  Host.exit_status out.2 = 1.
Proof. vm_compute. by repeat split. Qed.

(** ** Sequences of calls on the contract *)

(** The arguments of the [store] calls of a sequence, in order. *)
Definition store_args (cs : list Storage.call) : list Z :=
  omap (fun c => match c with
                 | Storage.Store num => Some num
                 | Storage.Retrieve => None
                 end) cs.

(** The argument of the last [store] of a sequence, or [d] when the
    sequence holds none. *)
Definition last_stored (cs : list Storage.call) (d : Z) : Z :=
  default d (last (store_args cs)).

Section SequenceFacts.
Import Storage.

Lemma store_args_snoc (cs : list call) (c : call) :
  store_args (cs ++ [c]) =
    store_args cs ++ match c with Store num => [num] | Retrieve => [] end.
Proof.
  unfold store_args. rewrite omap_app. by destruct c.
Qed.

Lemma exec_number (cs : list call) (self : contract) :
  number (exec cs self).2 = last_stored cs (number self).
Proof.
  induction cs as [|c cs IH] using rev_ind; [done|].
  rewrite exec_app. cbn [snd]. unfold last_stored.
  rewrite store_args_snoc. destruct c as [num|]; simpl.
  - by rewrite last_snoc.
  - rewrite app_nil_r. exact IH.
Qed.

Lemma exec_length (cs : list call) (self : contract) :
  length (exec cs self).1 = length cs.
Proof.
  revert self. induction cs as [|c cs IH]; intros self; [done|].
  simpl. destruct (dispatch c self) as [r self1]. specialize (IH self1).
  destruct (exec cs self1) as [rs self2]. simpl in *. by rewrite IH.
Qed.

(** The reply to the call at position [i] is the reply of that call on
    the state the calls before it left. *)
Lemma exec_lookup (cs : list call) (self : contract) (i : nat) (c : call) :
  cs !! i = Some c ->
  (exec cs self).1 !! i = Some (dispatch c (exec (take i cs) self).2).1.
Proof.
  intros Hi.
  rewrite <- (take_drop_middle cs i c Hi) at 1.
  rewrite exec_app. cbn [fst].
  rewrite lookup_app_r; rewrite exec_length, length_take_le;
    try (apply Nat.lt_le_incl; by eapply lookup_lt_Some).
  - rewrite Nat.sub_diag. simpl.
    destruct (dispatch c (exec (take i cs) self).2) as [r self1].
    by destruct (exec (drop (S i) cs) self1).
  - done.
Qed.

End SequenceFacts.

(** X1: after any sequence of calls from any state, the counter holds the
    argument of the last [store] of the sequence, and what it held before
    when the sequence has no [store]. *)
Theorem counter_holds_last_store (cs : list Storage.call) (self : Storage.contract) :
  Storage.number (Storage.exec cs self).2 =
    default (Storage.number self) (last (store_args cs)).
Proof. apply exec_number. Qed.

(** X2: in any sequence of calls, one reply comes back per call; a
    [retrieve] at position i replies with the argument of the last
    [store] before position i (with the starting value when there is
    none), and a [store] replies with no data. *)
Theorem replies_follow_last_store (cs : list Storage.call)
    (self : Storage.contract) (i : nat) (c : Storage.call) :
  cs !! i = Some c ->
  length (Storage.exec cs self).1 = length cs /\
  (Storage.exec cs self).1 !! i =
    Some match c with
         | Storage.Retrieve =>
             Storage.Value (last_stored (take i cs) (Storage.number self))
         | Storage.Store _ => Storage.Done
         end.
Proof.
  intros Hi. split; [apply exec_length|].
  rewrite (exec_lookup cs self i c Hi).
  destruct c as [num|]; simpl; [done|]. by rewrite exec_number.
Qed.

Lemma replies_follow_last_store_witness :
  [Storage.Store 50; Storage.Retrieve; Storage.Store 100; Storage.Retrieve] !! 3%nat =
    Some Storage.Retrieve /\
  (Storage.exec
     [Storage.Store 50; Storage.Retrieve; Storage.Store 100; Storage.Retrieve]
     Storage.constructor).1 !! 3%nat = Some (Storage.Value 100).
Proof.
  split; [reflexivity|].
  exact (proj2 (replies_follow_last_store
    [Storage.Store 50; Storage.Retrieve; Storage.Store 100; Storage.Retrieve]
    Storage.constructor 3 Storage.Retrieve eq_refl)).
Defined.

(** ** What the script passes to the host *)

Module Recorder.
Import Host.

(** A call as the host saw it: its arguments, and its answer. *)
Inductive record : Type :=
| RGetContractFactory (name : string) (r : Error + ContractFactory)
| RDeploy (f : ContractFactory) (r : Error + Contract)
| RDeployed (c : Contract) (r : Error + unit)
| RRetrieve (c : Contract) (r : Error + Z)
| RStore (c : Contract) (num : Z) (r : Error + TransactionResponse)
| RWait (tx : TransactionResponse) (r : Error + unit)
| RLog (args : list value) (r : Error + unit).

Definition record_of {X : Type} (e : hostE X) : Error + X -> record :=
  match e in hostE X return Error + X -> record with
  | GetContractFactory name => RGetContractFactory name
  | Deploy f => RDeploy f
  | Deployed c => RDeployed c
  | CallRetrieve c => RRetrieve c
  | SendStore c num => RStore c num
  | Wait tx => RWait tx
  | ConsoleLog args => RLog args
  end.

(** Any host, made to keep the list of the calls it answered. *)
Definition recording {S : Type} (h : handler S) : handler (S * list record) :=
  fun X e sl =>
    let '(r, s') := h X e sl.1 in
    (r, (s', sl.2 ++ [record_of e r])).

(** The instances that [deploy] handed out. *)
Definition deployed_instances (log : list record) : list Contract :=
  omap (fun r => match r with RDeploy _ (inr c) => Some c | _ => None end) log.

(** The instances that calls were made on. *)
Definition used_instances (log : list record) : list Contract :=
  omap (fun r => match r with
                 | RDeployed c _ | RRetrieve c _ | RStore c _ _ => Some c
                 | _ => None
                 end) log.

(** The transactions that [store] handed out, and those waited for. *)
Definition sent_transactions (log : list record) : list TransactionResponse :=
  omap (fun r => match r with RStore _ _ (inr tx) => Some tx | _ => None end) log.

Definition awaited_transactions (log : list record) : list TransactionResponse :=
  omap (fun r => match r with RWait tx _ => Some tx | _ => None end) log.

(** The values that [retrieve] returned. *)
Definition values_read (log : list record) : list Z :=
  omap (fun r => match r with RRetrieve _ (inr v) => Some v | _ => None end) log.

(** The numbers and the addresses among the arguments of [console.log]. *)
Definition numbers_of (args : list value) : list Z :=
  omap (fun a => match a with Num n => Some n | _ => None end) args.

Definition addresses_of (args : list value) : list N :=
  omap (fun a => match a with Addr n => Some n | _ => None end) args.

Definition numbers_printed (log : list record) : list Z :=
  log ≫= (fun r => match r with RLog args _ => numbers_of args | _ => [] end).

Definition addresses_printed (log : list record) : list N :=
  log ≫= (fun r => match r with RLog args _ => addresses_of args | _ => [] end).

(** What the script did with the host's handles and values: every call on
    an instance is on the one instance deployed, every wait is for the one
    transaction sent, the numbers printed are the values read, in order
    and unchanged, and the address printed is that of the instance. *)
Definition faithful (log : list record) : Prop :=
  (forall c : Contract, c ∈ used_instances log -> deployed_instances log = [c]) /\
  (forall tx : TransactionResponse,
      tx ∈ awaited_transactions log -> sent_transactions log = [tx]) /\
  numbers_printed log `prefix_of` values_read log /\
  addresses_printed log `prefix_of` (address <$> deployed_instances log).

(** What holds of a run that came to its end: all that was read was
    printed, and the transaction sent was waited for. *)
Definition settled (log : list record) : Prop :=
  numbers_printed log = values_read log /\
  length (values_read log) = 2%nat /\
  awaited_transactions log = sent_transactions log /\
  length (sent_transactions log) = 1%nat /\
  addresses_printed log = address <$> deployed_instances log.

End Recorder.

Section RecorderFacts.
Import Host Recorder.
Context {S : Type} (h : handler S).

(** Recording changes nothing in a run and only adds to the list. *)
Lemma run_recording {R : Type} (p : prog R) (s : S) (log : list record) :
  let r := run (recording h) p (s, log) in
  completion r = completion (run h p s) /\
  trace r = trace (run h p s) /\
  (host r).1 = host (run h p s) /\
  log `prefix_of` (host r).2.
Proof.
  revert s log. induction p as [r|X e k IH]; intros s log; cbv zeta.
  - by repeat split.
  - destruct (h X e s) as [[err|x] s'] eqn:Hh.
    + rewrite (run_vis_threw h e k s s' err Hh).
      rewrite (run_vis_threw (recording h) e k (s, log)
                 (s', log ++ [record_of e (inl err)]) err)
        by (unfold recording; simpl; by rewrite Hh).
      simpl. repeat split. by eexists.
    + rewrite (run_vis_returned h e k s s' x Hh).
      rewrite (run_vis_returned (recording h) e k (s, log)
                 (s', log ++ [record_of e (inr x)]) x)
        by (unfold recording; simpl; by rewrite Hh).
      destruct (IH x s' (log ++ [record_of e (inr x)])) as (Hc & Ht & Hs & Hl).
      simpl. rewrite Hc, Ht, Hs. repeat split.
      etrans; [|exact Hl]. by eexists.
Qed.

Ltac recorded_answer :=
  cbn [bind];
  match goal with
  | |- context [run (recording h) (Vis ?e ?k) (?s, ?log)] =>
      let err := fresh "err" in
      let x := fresh "x" in
      let s' := fresh "s" in
      let Hh := fresh "Hh" in
      destruct (h _ e s) as [[err|x] s'] eqn:Hh;
      [ rewrite (run_vis_threw (recording h) e k (s, log)
                   (s', log ++ [record_of e (inl err)]) err)
          by (unfold recording; simpl; by rewrite Hh)
      | rewrite (run_vis_returned (recording h) e k (s, log)
                   (s', log ++ [record_of e (inr x)]) x)
          by (unfold recording; simpl; by rewrite Hh) ];
      cbn [completion trace host after_call app record_of snd]
  end.

Ltac member_cases :=
  let c := fresh "c" in
  let Hc := fresh "Hc" in
  intros c Hc;
  repeat (apply elem_of_cons in Hc as [->|Hc]; [reflexivity|]);
  by apply elem_of_nil in Hc.

Ltac faithful_log :=
  unfold faithful; simpl;
  split; [member_cases|];
  split; [member_cases|];
  split; by eexists.

Lemma driver_faithful (value : Z) (s : S) :
  let r := run (recording h) (driver value) (s, []) in
  faithful (host r).2 /\ (completion r = inr tt -> settled (host r).2).
Proof.
  cbv zeta. unfold driver, await, console_log, mbind, prog_bind.
  do 11 (recorded_answer; [split; [faithful_log|intros Hc; discriminate Hc]|]).
  cbn [run host snd]. split; [faithful_log|]. intros _. by repeat split.
Qed.

End RecorderFacts.

(** X3: on any host the script uses the host's handles and values as it
    got them, in both copies: every call on an instance ([deployed],
    [retrieve], [store]) is made on the one instance that [deploy]
    returned, [wait] is called on the transaction that [store] returned,
    the numbers printed are the values that [retrieve] returned, in
    order, and the address printed is that of the instance; in a run that
    comes to its end, both values read are printed and the one
    transaction sent is the one waited for. *)
Theorem main_passes_on_what_host_returned {S : Type} (h : Host.handler S) (s : S) :
  let r1 := Host.run (Recorder.recording h) DeployJs.main (s, []) in
  let r2 := Host.run (Recorder.recording h) Readme.main (s, []) in
  (Recorder.faithful (Host.host r1).2 /\
   (Host.completion r1 = inr tt -> Recorder.settled (Host.host r1).2)) /\
  (Recorder.faithful (Host.host r2).2 /\
   (Host.completion r2 = inr tt -> Recorder.settled (Host.host r2).2)).
Proof.
  split.
  - exact (driver_faithful h 50 s).
  - exact (driver_faithful h 100 s).
Qed.

Lemma main_passes_on_what_host_returned_witness :
  let r := Host.run (Recorder.recording Ledger.handle) DeployJs.main
             (Ledger.genesis false [], []) in
  Host.completion r = inr tt /\ Recorder.settled (Host.host r).2.
Proof.
  split; [reflexivity|].
  exact (proj2 (proj1
    (main_passes_on_what_host_returned Ledger.handle (Ledger.genesis false [])))
    eq_refl).
Defined.

(** X4: the copy of the script in README.md fails as the runnable one
    does, on any host: when a call throws, no later call is made, the
    error is written by [console.error] and the exit status is 1; when
    all eleven calls return, nothing is written to the error channel and
    the exit status is 0. *)
Theorem readme_main_failure_aborts {S : Type} (h : Host.handler S) (s : S) :
  let out := Host.script Readme.main h s Host.process_start in
  match Host.completion out.1 with
  | inr _ =>
      Host.trace out.1 = map Host.returned (driver_ops 100) /\
      Host.stderr out.2 = [] /\
      Host.exit_status out.2 = 0
  | inl err =>
      (exists (n : nat) (o : Host.op),
          driver_ops 100 !! n = Some o /\
          Host.trace out.1 =
            map Host.returned (take n (driver_ops 100)) ++ [Host.threw o err]) /\
      Host.stderr out.2 = [err] /\
      Host.exit_status out.2 = 1
  end.
Proof.
  intros out. subst out. change Readme.main with (driver 100).
  destruct (script_process h (driver 100) s Host.process_start) as [-> Hp].
  pose proof (driver_runs h 100 s) as Hr. cbv zeta in Hr.
  destruct (Host.completion (Host.run h (driver 100) s)) as [err|[]];
    rewrite Hp; (split; [exact Hr|]); by repeat split.
Qed.

(** X5: the copy of the script in README.md, on a ledger with no failure
    to come, writes 100 once and reports 0 and then 100; here the line
    that announces the write names the value written. *)
Theorem readme_main_reads_back_100 (l : Ledger.state) :
  Ledger.faults l = [] ->
  let r := Host.run Ledger.handle Readme.main l in
  Host.completion r = inr tt /\
  stores (Host.trace r) = [100] /\
  Ledger.stdout (Host.host r) =
    Ledger.stdout l ++
      [[Host.Str "Storage contract deployed to:"; Host.Addr (Ledger.next_address l)];
       [Host.Str "Retrieve value:"; Host.Num 0];
       [Host.Str "Store value 100 in the contract..."];
       [Host.Str "Retrieve value after storing:"; Host.Num 100]] /\
  Ledger.instances (Host.host r) !! Ledger.next_address l =
    Some {| Storage.number := 100 |}.
Proof.
  intros Hf r. subst r. change Readme.main with (driver 100).
  destruct (driver_on_ledger 100 l eq_refl Hf) as (Hc & Ht & Hout & Hinst & _).
  repeat split; try done. by rewrite Ht.
Qed.

Lemma readme_main_reads_back_100_witness :
  Ledger.faults (Ledger.genesis true []) = [] /\
  stores (Host.trace
            (Host.run Ledger.handle Readme.main (Ledger.genesis true []))) =
    [100].
Proof.
  split; [reflexivity|].
  exact (proj1 (proj2
    (readme_main_reads_back_100 (Ledger.genesis true []) eq_refl))).
Defined.

(** ** The script on a ledger that fails *)

(** The first failure of a schedule of host failures. *)
Definition first_failure (fs : list (option Host.Error)) : option Host.Error :=
  head (omap id fs).

Section FaultFacts.
Import Host Ledger.

Ltac chain_unfold :=
  cbv [handle op_of fault answer submit confirm
       with_next with_chain with_faults with_stdout
       instances mempool next_address next_hash automine faults stdout
       address deployTransaction hash];
  rewrite ?lookup_insert_eq, ?delete_insert_eq, ?lookup_delete_eq,
    ?lookup_alter_eq.

Ltac returns :=
  cbn [bind];
  erewrite run_vis_returned; [|chain_unfold; chain_unfold; reflexivity].

Ltac throws :=
  cbn [bind];
  erewrite run_vis_threw; [|chain_unfold; chain_unfold; reflexivity].

Ltac outcome :=
  cbn [run after_call completion trace host fst snd stderr exitCode
       process_start instances mempool next_address app];
  unfold first_failure, exit_status; simpl;
  rewrite ?lookup_alter_eq, ?lookup_insert_eq; simpl;
  repeat split; try done; try (intros ?; try done); auto.

(** All the runs of the script on the ledger: calls return until one
    meets a scheduled failure. *)
Ltac explore :=
  repeat returns; cbn [bind];
  lazymatch goal with
  | |- context [run handle (Vis _ _) (Build_state _ _ _ _ _ ?fs _)] =>
      is_var fs;
      let err := fresh "err" in
      destruct fs as [|[err|] fs];
      [ explore | throws; outcome | explore ]
  | |- context [run handle (Ret _) _] => outcome
  end.

Lemma driver_50_on_failing_ledger (l : state) :
  let out := script (driver 50) handle l process_start in
  let a := next_address l in
  let after := instances (host out.1) !! a in
  let failure := first_failure (take 7 (faults l)) in
  stderr out.2 = option_list failure /\
  exit_status out.2 = match failure with Some _ => 1 | None => 0 end /\
  (failure = None -> after = Some {| Storage.number := 50 |}) /\
  (first_failure (take 5 (faults l)) <> None ->
   after = instances l !! a \/ after = Some {| Storage.number := 0 |}) /\
  (after = instances l !! a \/
   after = Some {| Storage.number := 0 |} \/
   after = Some {| Storage.number := 50 |}).
Proof.
  destruct l as [insts mp a h auto fs out]. cbv zeta.
  unfold script. cbv zeta.
  unfold driver, await, console_log, mbind, prog_bind.
  destruct auto.
  - explore.
  - explore.
Qed.

End FaultFacts.

(** X6: the script on the ledger, whatever failures are to come. Seven of
    its calls reach the ledger; the script exits with status 0 exactly
    when none of them meets a failure, and then the new counter holds 50;
    otherwise it exits with status 1 and [console.error] has written the
    first failure met, and no other. Nothing is undone on failure: the
    counter is then left absent (as the address was before), at 0, or at
    50; it is not at 50 when the failure came before the write was
    accepted. *)
Theorem main_on_failing_ledger (l : Ledger.state) :
  let out := Host.script DeployJs.main Ledger.handle l Host.process_start in
  let a := Ledger.next_address l in
  let after := Ledger.instances (Host.host out.1) !! a in
  let failure := first_failure (take 7 (Ledger.faults l)) in
  Host.stderr out.2 = option_list failure /\
  Host.exit_status out.2 = match failure with Some _ => 1 | None => 0 end /\
  (failure = None -> after = Some {| Storage.number := 50 |}) /\
  (first_failure (take 5 (Ledger.faults l)) <> None ->
   after = Ledger.instances l !! a \/ after = Some {| Storage.number := 0 |}) /\
  (after = Ledger.instances l !! a \/
   after = Some {| Storage.number := 0 |} \/
   after = Some {| Storage.number := 50 |}).
Proof. exact (driver_50_on_failing_ledger l). Qed.

Lemma main_on_failing_ledger_witness :
  let l := Ledger.genesis false
             [None; None; None; None; None; Some Host.HostUnreachable] in
  let out := Host.script DeployJs.main Ledger.handle l Host.process_start in
  first_failure (take 7 (Ledger.faults l)) = Some Host.HostUnreachable /\
  Host.stderr out.2 = [Host.HostUnreachable] /\
  Host.exit_status out.2 = 1.
Proof.
  split; [reflexivity|].
  pose proof (main_on_failing_ledger
    (Ledger.genesis false
       [None; None; None; None; None; Some Host.HostUnreachable])) as H.
  split; [exact (proj1 H)|exact (proj1 (proj2 H))].
Defined.
